(** * homebridge-roku-tv: the application identity mapper

    A shallow embedding of [src/roku-app-map.ts] together with the two call
    sites that feed and read it: [createClientInfoFromClient] in
    [src/roku-homebridge-platform.ts] (which appends the Home entry) and
    [configureTelevisionApplicationInputs] in
    [src/roku-homebridge-accessory.ts] (which filters the inputs by the
    excluded names). *)

From Stdlib Require Import ZArith List Bool Lia String Ascii.
Import ListNotations.

Local Open Scope Z_scope.

(** ** JavaScript values used by the mapper *)

Module JS.

(** A JavaScript string is a sequence of UTF-16 code units; [split("")]
    yields exactly these units and [charCodeAt(0)] reads one of them. *)
Definition jsstring := list Z.

Definition code_unit_ok (c : Z) : Prop := 0 <= c < 65536.

Definition wf_jsstring (s : jsstring) : Prop := Forall code_unit_ok s.

(** Literals of the examples, written as Rocq strings. *)
Fixpoint of_string (s : string) : jsstring :=
  match s with
  | EmptyString => []
  | String c r => Z.of_N (N_of_ascii c) :: of_string r
  end.

Definition jsstring_dec : forall a b : jsstring, {a = b} + {a <> b} :=
  list_eq_dec Z.eq_dec.

(** [a === b] on strings. *)
Definition str_eqb (a b : jsstring) : bool :=
  if jsstring_dec a b then true else false.

(** [ToInt32]: reduction modulo 2^32 into the signed range. *)
Definition to_int32 (z : Z) : Z := (z + 2 ^ 31) mod 2 ^ 32 - 2 ^ 31.

(** [a << n] *)
Definition shl32 (a n : Z) : Z :=
  to_int32 (Z.shiftl (to_int32 a) (Z.land n 31)).

(** [a & b] *)
Definition and32 (a b : Z) : Z :=
  to_int32 (Z.land (to_int32 a) (to_int32 b)).

Definition is_int32 (z : Z) : Prop := - 2 ^ 31 <= z <= 2 ^ 31 - 1.

(** [xs.includes(s)] on an array of strings. *)
Definition includes (xs : list jsstring) (s : jsstring) : bool :=
  existsb (str_eqb s) xs.

End JS.

Import JS.

(** ** roku-app-map.ts *)

(** [RokuApp] of the roku-client package. *)
Record RokuApp := mkRokuApp {
  app_id : jsstring;
  app_name : jsstring;
  app_type : jsstring;
  app_version : jsstring
}.

Record MappedApp := mkMappedApp {
  id : Z;
  rokuAppId : jsstring;
  name : jsstring;
  type : jsstring;
  version : jsstring
}.

(** The callback handed to [reduce] in [hashCode].  The accumulator is a
    32-bit integer at every call and a code unit is below 2^16, so the
    subtraction and the addition are exact in double precision and are
    written over [Z]. *)
Definition hashStep (a b : Z) : Z :=
  let a := shl32 a 5 - a + b in
  and32 a a.

Definition hashCode (s : jsstring) : Z := fold_left hashStep s 0.

Definition createMappedApps (apps : list RokuApp) : list MappedApp :=
  map (fun a =>
         {| id := hashCode (app_id a);
            rokuAppId := app_id a;
            name := app_name a;
            type := app_type a;
            version := app_version a |}) apps.

(** [createMappedApps([app])[0]]; indexing an array yields [undefined]
    out of range. *)
Definition asMappedApp (app : RokuApp) : option MappedApp :=
  nth_error (createMappedApps [app]) 0.

(** The run of [reduce] inside [hashCode], one callback invocation per step:
    a configuration is the accumulator and the code units still to visit. *)
Inductive reduce_step : Z * jsstring -> Z * jsstring -> Prop :=
| reduce_step_char a b rest :
    reduce_step (a, b :: rest) (hashStep a b, rest).

Inductive reduce_returns : Z * jsstring -> Z -> Prop :=
| reduce_done a : reduce_returns (a, []) a
| reduce_more c c' z :
    reduce_step c c' -> reduce_returns c' z -> reduce_returns c z.

(** A call [hashCode(s)] returns [z]. *)
Definition hashCode_returns (s : jsstring) (z : Z) : Prop :=
  reduce_returns (0, s) z.

(** *** class RokuAppMap *)

Record RokuAppMap := mkRokuAppMap {
  apps : list RokuApp;
  mappedApps : list MappedApp
}.

(** [new RokuAppMap(apps)] *)
Definition new_RokuAppMap (apps : list RokuApp) : RokuAppMap :=
  {| apps := apps; mappedApps := createMappedApps apps |}.

(** [Array.prototype.find] yields the first element that satisfies the
    predicate, or [undefined]; the [as MappedApp] cast has no run-time
    effect, so the result is optional. *)
Definition getAppFromRokuId (this : RokuAppMap) (identifier : jsstring)
  : option MappedApp :=
  find (fun x => str_eqb (rokuAppId x) identifier) (mappedApps this).

Definition getAppFromId (this : RokuAppMap) (identifier : Z)
  : option MappedApp :=
  find (fun x => id x =? identifier) (mappedApps this).

Definition getApps (this : RokuAppMap) : list MappedApp := mappedApps this.

(** *** Method calls on a [RokuAppMap] object, with the object threaded
    through as state *)

Definition Method (A : Type) : Type := RokuAppMap -> A * RokuAppMap.

Definition ret {A} (a : A) : Method A := fun this => (a, this).

Definition bind {A B} (m : Method A) (k : A -> Method B) : Method B :=
  fun this => let (a, this') := m this in k a this'.

(** Reading [this]; the class has no statement that assigns a field after
    the constructor, so there is no write counterpart. *)
Definition read_this : Method RokuAppMap := fun this => (this, this).

Notation "x <- m ;; k" := (bind m (fun x => k))
  (at level 61, m at next level, right associativity).

Inductive Call :=
| CallGetAppFromRokuId (identifier : jsstring)
| CallGetAppFromId (identifier : Z)
| CallGetApps.

Inductive Value :=
| VApp (r : option MappedApp)
| VApps (l : list MappedApp).

Definition invoke (c : Call) : Method Value :=
  match c with
  | CallGetAppFromRokuId s =>
      this <- read_this ;; ret (VApp (getAppFromRokuId this s))
  | CallGetAppFromId n =>
      this <- read_this ;; ret (VApp (getAppFromId this n))
  | CallGetApps =>
      this <- read_this ;; ret (VApps (getApps this))
  end.

Fixpoint invoke_all (cs : list Call) : Method (list Value) :=
  match cs with
  | [] => ret []
  | c :: cs' =>
      v <- invoke c ;;
      vs <- invoke_all cs' ;;
      ret (v :: vs)
  end.

(** ** roku-homebridge-platform.ts *)

Module Platform.

Section ClientInfo.

(** [RokuClient] and [RokuDeviceInfo] belong to the roku-client package and
    are only carried along; [homeScreenActiveId] is the constant exported by
    ./settings. *)
Variables RokuClient RokuDeviceInfo : Type.
Variable homeScreenActiveId : jsstring.

Record RokuClientInfo := mkRokuClientInfo {
  client : RokuClient;
  apps : list RokuApp;
  info : RokuDeviceInfo
}.

(** The application representing the Home screen. *)
Definition homeApp : RokuApp :=
  {| app_name := of_string "Home";
     app_type := of_string "Home";
     app_id := homeScreenActiveId;
     app_version := of_string "1" |}.

(** [createClientInfoFromClient], given what [rokuClient.info()] and
    [rokuClient.apps()] resolved to: the Home application is pushed at the
    end of the fetched list. *)
Definition createClientInfoFromClient
  (rokuClient : RokuClient) (fetchedInfo : RokuDeviceInfo)
  (fetchedApps : list RokuApp) : RokuClientInfo :=
  {| client := rokuClient;
     apps := fetchedApps ++ [homeApp];
     info := fetchedInfo |}.

End ClientInfo.

Arguments client {RokuClient RokuDeviceInfo} _.
Arguments apps {RokuClient RokuDeviceInfo} _.
Arguments info {RokuClient RokuDeviceInfo} _.
Arguments createClientInfoFromClient {RokuClient RokuDeviceInfo} _ _ _ _.

End Platform.

(** ** roku-homebridge-accessory.ts *)

Module Accessory.

(** The constructor's [this.applicationMap = new RokuAppMap(clientInfo.apps)]. *)
Definition applicationMap {RokuClient RokuDeviceInfo : Type}
  (clientInfo : Platform.RokuClientInfo RokuClient RokuDeviceInfo)
  : RokuAppMap :=
  new_RokuAppMap (Platform.apps clientInfo).

(** The constant [apps] of [configureTelevisionApplicationInputs]: the
    applications for which an input source is registered. *)
Definition configuredInputApps
  (applicationMap : RokuAppMap) (excludedApps : list jsstring)
  : list MappedApp :=
  filter (fun x => negb (includes excludedApps (name x)))
         (getApps applicationMap).

(** The index an accessory holds for a discovered device: [discoverDevices]
    passes what [createClientInfoFromClient] returns to the accessory's
    constructor. *)
Definition sessionIndex {RokuClient RokuDeviceInfo : Type}
  (homeScreenActiveId : jsstring) (rokuClient : RokuClient)
  (fetchedInfo : RokuDeviceInfo) (fetchedApps : list RokuApp) : RokuAppMap :=
  applicationMap
    (Platform.createClientInfoFromClient
       homeScreenActiveId rokuClient fetchedInfo fetchedApps).

End Accessory.

(** ** Sample records *)

(** Two applications whose native ids differ and hash to the same number. *)
Definition appAa : RokuApp :=
  mkRokuApp (of_string "Aa") (of_string "First") (of_string "appl")
            (of_string "1").

Definition appBB : RokuApp :=
  mkRokuApp (of_string "BB") (of_string "Second") (of_string "appl")
            (of_string "1").

Definition mappedAa : MappedApp :=
  mkMappedApp 2112 (of_string "Aa") (of_string "First") (of_string "appl")
              (of_string "1").

Definition mappedBB : MappedApp :=
  mkMappedApp 2112 (of_string "BB") (of_string "Second") (of_string "appl")
              (of_string "1").

(** A second record that reports the native id "Aa". *)
Definition appAaAgain : RokuApp :=
  mkRokuApp (of_string "Aa") (of_string "Third") (of_string "appl")
            (of_string "2").

Definition mappedAaAgain : MappedApp :=
  mkMappedApp 2112 (of_string "Aa") (of_string "Third") (of_string "appl")
              (of_string "2").

Definition appNetflix : RokuApp :=
  mkRokuApp (of_string "12") (of_string "Netflix") (of_string "appl")
            (of_string "1").

Definition mappedNetflix : MappedApp :=
  mkMappedApp 1569 (of_string "12") (of_string "Netflix") (of_string "appl")
              (of_string "1").

Definition mappedHome : MappedApp :=
  mkMappedApp 1092658314 (of_string "home.id") (of_string "Home")
              (of_string "Home") (of_string "1").

(** ** Notions used to state the properties *)

(** The rolling hash in the words of the specification: multiply by 31, add
    the code unit, wrap to a signed 32-bit integer. *)
Definition rolling31_spec (s : jsstring) : Z :=
  fold_left (fun a c => to_int32 (a * 31 + c)) s 0.

(** The values the host accepts for the Identifier and ActiveIdentifier
    characteristics, to which the numeric ids are written: HomeKit declares
    both as unsigned 32-bit integers with minimum 0.  The characteristic
    types belong to the host package, not to this repository. *)
Definition host_identifier_ok (z : Z) : Prop := 0 <= z <= 2 ^ 32 - 1.

(** [Subseq l1 l2]: [l1] is obtained from [l2] by erasing elements, the
    remaining ones keeping their relative order. *)
Inductive Subseq {A : Type} : list A -> list A -> Prop :=
| Subseq_nil : Subseq [] []
| Subseq_skip x l1 l2 : Subseq l1 l2 -> Subseq l1 (x :: l2)
| Subseq_keep x l1 l2 : Subseq l1 l2 -> Subseq (x :: l1) (x :: l2).

(** ** roku-homebridge-accessory.ts: input sources and handlers *)

Module Handlers.

(** What a handler body does: it runs to its end, or a [TypeError] escapes
    it (a property read on [undefined]). *)
Inductive Outcome (A : Type) :=
| Completed (a : A)
| TypeError.

Arguments Completed {A} a.
Arguments TypeError {A}.

Definition andThen {A B} (o : Outcome A) (k : A -> Outcome B) : Outcome B :=
  match o with
  | Completed a => k a
  | TypeError => TypeError
  end.

(** [app.field] where [app] may be [undefined]. *)
Definition property {A} (app : option MappedApp) (field : MappedApp -> A)
  : Outcome A :=
  match app with
  | Some a => Completed (field a)
  | None => TypeError
  end.

(** The value handed to [callback(null, value)]. *)
Inductive CharacteristicValue :=
| NumberValue (n : Z)
| StringValue (s : jsstring).

(** The request sent to the device by the "set" handler. *)
Inductive ClientCommand :=
| KeypressHome
| Launch (rokuAppId : jsstring).

(** [Characteristic.InputSourceType], the two members the code uses. *)
Inductive InputSourceType := HOME_SCREEN | HDMI.

(** The constant [inputType] computed for one application inside the loop
    of [configureTelevisionApplicationInputs].  The calls the loop makes on
    the host's accessory and service objects are not modelled. *)
Definition inputType (app : MappedApp) : InputSourceType :=
  if str_eqb (type app) (of_string "Home") then HOME_SCREEN else HDMI.

Section ActiveApplication.

Variable applicationMap : RokuAppMap.
Variable homeScreenActiveId : jsstring.

(** The "get" handler of ActiveIdentifier, given what [client.active()]
    resolved to ([None] for [null]).  The log line reads [app.name] before
    [app] is tested. *)
Definition onGetActiveIdentifier (rokuApp : option RokuApp)
  : Outcome CharacteristicValue :=
  match rokuApp with
  | None => Completed (StringValue homeScreenActiveId)
  | Some r =>
      let app := getAppFromRokuId applicationMap (app_id r) in
      andThen (property app name) (fun _ =>
      match app with
      | Some a => Completed (NumberValue (id a))
      | None => Completed (StringValue homeScreenActiveId)
      end)
  end.

(** The "set" handler of ActiveIdentifier: the command it sends. *)
Definition onSetActiveIdentifier (identifier : Z) : Outcome ClientCommand :=
  let app := getAppFromId applicationMap identifier in
  andThen (property app name) (fun _ =>
  andThen (property app rokuAppId) (fun r =>
  if str_eqb r homeScreenActiveId
  then Completed KeypressHome
  else Completed (Launch r))).

(** The second half of [updatePowerAndActiveApplication], given what
    [client.active()] resolved to: the value written to ActiveIdentifier. *)
Definition updateActiveApplication (app : option RokuApp) : Outcome Z :=
  let rokuId :=
    match app with
    | Some a => app_id a
    | None => homeScreenActiveId
    end in
  let mappedApp := getAppFromRokuId applicationMap rokuId in
  andThen (property mappedApp name) (fun _ =>
  property mappedApp id).

End ActiveApplication.

(** [Characteristic.Active] *)
Inductive Active := INACTIVE | ACTIVE.

(** [info["powerMode"] === "PowerOn"]; the property may be missing. *)
Definition isOn (powerMode : option jsstring) : bool :=
  match powerMode with
  | Some s => str_eqb s (of_string "PowerOn")
  | None => false
  end.

Definition fetchTelevisionActiveState (powerMode : option jsstring) : Active :=
  if isOn powerMode then ACTIVE else INACTIVE.

(** [value === Characteristic.Active.ACTIVE]; [None] is a characteristic that
    holds no value of the enumeration yet. *)
Definition isAlreadyON (value : option Active) : bool :=
  match value with
  | Some ACTIVE => true
  | _ => false
  end.

(** The first half of [updatePowerAndActiveApplication]: the value passed
    to [updateCharacteristic], if the early return is not taken. *)
Definition updatePower (powerMode : option jsstring) (value : option Active)
  : option Active :=
  if Bool.eqb (isOn powerMode) (isAlreadyON value)
  then None
  else Some (if isOn powerMode then ACTIVE else INACTIVE).

(** The characteristic's value once the update, if any, is stored. *)
Definition valueAfterUpdatePower
  (powerMode : option jsstring) (value : option Active) : option Active :=
  match updatePower powerMode value with
  | Some v => Some v
  | None => value
  end.

End Handlers.

(** ** Remote keys *)

(** [Characteristic.RemoteKey] *)
Module RemoteKey.

Inductive t :=
| REWIND | FAST_FORWARD | NEXT_TRACK | PREVIOUS_TRACK
| ARROW_UP | ARROW_DOWN | ARROW_LEFT | ARROW_RIGHT
| SELECT | BACK | EXIT | PLAY_PAUSE | INFORMATION.

End RemoteKey.

(** The members of roku-client's [Keys] that the code refers to. *)
Module Keys.

Inductive t :=
| REVERSE | FORWARD | RIGHT | LEFT | UP | DOWN
| SELECT | BACK | HOME | PLAY | INFO.

End Keys.

(** [remoteKeyToKeyCommandAndName]; a value that is none of the members of
    [Characteristic.RemoteKey] is [None] and falls through the switch. *)
Definition remoteKeyToKeyCommandAndName (remoteKey : option RemoteKey.t)
  : option (Keys.t * jsstring) :=
  match remoteKey with
  | Some RemoteKey.REWIND => Some (Keys.REVERSE, of_string "REVERSE")
  | Some RemoteKey.FAST_FORWARD => Some (Keys.FORWARD, of_string "FORWARD")
  | Some RemoteKey.NEXT_TRACK => Some (Keys.RIGHT, of_string "RIGHT")
  | Some RemoteKey.PREVIOUS_TRACK => Some (Keys.LEFT, of_string "LEFT")
  | Some RemoteKey.ARROW_UP => Some (Keys.UP, of_string "UP")
  | Some RemoteKey.ARROW_DOWN => Some (Keys.DOWN, of_string "DOWN")
  | Some RemoteKey.ARROW_LEFT => Some (Keys.LEFT, of_string "LEFT")
  | Some RemoteKey.ARROW_RIGHT => Some (Keys.RIGHT, of_string "RIGHT")
  | Some RemoteKey.SELECT => Some (Keys.SELECT, of_string "SELECT")
  | Some RemoteKey.BACK => Some (Keys.BACK, of_string "BACK")
  | Some RemoteKey.EXIT => Some (Keys.HOME, of_string "HOME")
  | Some RemoteKey.PLAY_PAUSE => Some (Keys.PLAY, of_string "PLAY")
  | Some RemoteKey.INFORMATION => Some (Keys.INFO, of_string "INFO")
  | None => None
  end.

(** The "set" handler of RemoteKey: the key press it sends, if any. *)
Definition onSetRemoteKey (newValue : option RemoteKey.t) : option Keys.t :=
  match remoteKeyToKeyCommandAndName newValue with
  | Some keyAndName => Some (fst keyAndName)
  | None => None
  end.

(** ** roku-homebridge-platform.ts: discovery *)

Module Discovery.

Record PlatformAccessory := mkPlatformAccessory {
  displayName : jsstring;
  UUID : jsstring
}.

(** [configureAccessory]: the restored accessory is pushed on
    [this.accessories]. *)
Definition configureAccessory
  (accessories : list PlatformAccessory) (accessory : PlatformAccessory)
  : list PlatformAccessory :=
  accessories ++ [accessory].

Section Devices.

(** [deviceId] and [userDeviceName] are the two properties read off
    [RokuDeviceInfo]; [generate] is [api.hap.uuid.generate]. *)
Variables RokuClient RokuDeviceInfo : Type.
Variable deviceId : RokuDeviceInfo -> jsstring.
Variable userDeviceName : RokuDeviceInfo -> jsstring.
Variable generate : jsstring -> jsstring.

(** The branch [createAccessoryFromRokuClientInfo] takes for one device and
    what it passes on: [restoreExistingAccessoryFromClientInfo] with the
    cached accessory, or [createNewAccessoryFromClientInfo], which asks the
    host for a new accessory with the given name and UUID, to be registered
    once its handler is built.  The last component is the [excludedApps]
    handed to the handler.  Whether the host calls made inside the branch
    succeed is not modelled. *)
Inductive Setup :=
| Restored (existingAccessory : PlatformAccessory)
           (deviceInfo : Platform.RokuClientInfo RokuClient RokuDeviceInfo)
           (excludedApps : list jsstring)
| Registered (accessory : PlatformAccessory)
             (deviceInfo : Platform.RokuClientInfo RokuClient RokuDeviceInfo)
             (excludedApps : list jsstring).

(** [this.config.excludedApps ?? []] *)
Definition excludedOrEmpty (excludedApps : option (list jsstring))
  : list jsstring :=
  match excludedApps with
  | Some l => l
  | None => []
  end.

Definition createAccessoryFromRokuClientInfo
  (accessories : list PlatformAccessory)
  (configExcludedApps : option (list jsstring))
  (clientInfo : Platform.RokuClientInfo RokuClient RokuDeviceInfo) : Setup :=
  let homebridgeAccessoryId :=
    generate (deviceId (Platform.info clientInfo)) in
  match find (fun accessory => str_eqb (UUID accessory) homebridgeAccessoryId)
             accessories with
  | Some existingAccessory =>
      Restored existingAccessory clientInfo
               (excludedOrEmpty configExcludedApps)
  | None =>
      Registered
        {| displayName := userDeviceName (Platform.info clientInfo);
           UUID := homebridgeAccessoryId |}
        clientInfo (excludedOrEmpty configExcludedApps)
  end.

End Devices.

End Discovery.

(** ** Further notions used to state the properties *)

(** The rolling hash without intermediate wrapping. *)
Definition poly31 (s : jsstring) (a : Z) : Z :=
  fold_left (fun a c => a * 31 + c) s a.

(** Code units of the decimal digits. *)
Definition is_digit (c : Z) : Prop := 48 <= c <= 57.

Definition digit_string (s : jsstring) : Prop := Forall is_digit s.

(** * Properties *)

Example hashCode_empty : hashCode (of_string "") = 0.
Proof. reflexivity. Qed.

Example hashCode_12 : hashCode (of_string "12") = 1569.
Proof. reflexivity. Qed.

Example hashCode_Aa_BB :
  hashCode (of_string "Aa") = 2112 /\ hashCode (of_string "BB") = 2112.
Proof. split; reflexivity. Qed.

Example hashCode_hdmi1 :
  hashCode (of_string "tvinput.hdmi1") = 1295095987.
Proof. vm_compute. reflexivity. Qed.

Example hashCode_wraps : hashCode (of_string "Netflix") = -787338382.
Proof. vm_compute. reflexivity. Qed.

(** ** 32-bit arithmetic *)

Section Int32.

Lemma to_int32_range z : is_int32 (to_int32 z).
Proof.
  unfold is_int32, to_int32.
  pose proof (Z.mod_pos_bound (z + 2 ^ 31) (2 ^ 32) ltac:(lia)). lia.
Qed.

Lemma to_int32_id z : is_int32 z -> to_int32 z = z.
Proof.
  unfold is_int32, to_int32. intros Hz.
  rewrite Z.mod_small by lia. lia.
Qed.

Lemma to_int32_idem z : to_int32 (to_int32 z) = to_int32 z.
Proof. apply to_int32_id, to_int32_range. Qed.

(** Two integers congruent modulo 2^32 have the same [ToInt32]. *)
Lemma to_int32_congr x y k : x = y + k * 2 ^ 32 -> to_int32 x = to_int32 y.
Proof.
  intros ->. unfold to_int32.
  replace (y + k * 2 ^ 32 + 2 ^ 31) with (y + 2 ^ 31 + k * 2 ^ 32) by ring.
  now rewrite Z.mod_add by lia.
Qed.

Lemma to_int32_decomp z : exists k, to_int32 z = z + k * 2 ^ 32.
Proof.
  exists (- ((z + 2 ^ 31) / 2 ^ 32)). unfold to_int32.
  rewrite Z.mod_eq by lia. ring.
Qed.

Lemma and32_diag a : and32 a a = to_int32 a.
Proof. unfold and32. now rewrite Z.land_diag, to_int32_idem. Qed.

Lemma shl32_5 a : shl32 a 5 = to_int32 (to_int32 a * 32).
Proof.
  unfold shl32. change (Z.land 5 31) with 5.
  now rewrite Z.shiftl_mul_pow2 by lia.
Qed.

Lemma hashStep_range a b : is_int32 (hashStep a b).
Proof. unfold hashStep. rewrite and32_diag. apply to_int32_range. Qed.

(** On an accumulator that already is a 32-bit integer, one step of the
    reducer is multiply-by-31, add, wrap. *)
Lemma hashStep_mul31 a b :
  is_int32 a -> hashStep a b = to_int32 (a * 31 + b).
Proof.
  intros Ha. unfold hashStep. rewrite and32_diag, shl32_5, (to_int32_id a Ha).
  destruct (to_int32_decomp (a * 32)) as [k Hk]. rewrite Hk.
  apply (to_int32_congr _ _ k). ring.
Qed.

End Int32.

(** The accumulator of [hashCode] stays a 32-bit integer. *)
Lemma fold_hashStep_range s a :
  is_int32 a -> is_int32 (fold_left hashStep s a).
Proof.
  revert a. induction s as [|c s IH]; intros a Ha; simpl.
  - exact Ha.
  - apply IH, hashStep_range.
Qed.

Lemma fold_hashStep_mul31 s a :
  is_int32 a ->
  fold_left hashStep s a = fold_left (fun a c => to_int32 (a * 31 + c)) s a.
Proof.
  revert a. induction s as [|c s IH]; intros a Ha; simpl.
  - reflexivity.
  - rewrite (hashStep_mul31 a c Ha). apply IH, to_int32_range.
Qed.

Lemma zero_is_int32 : is_int32 0.
Proof. unfold is_int32. lia. Qed.

(** C4, as stated, fails: the hash of "Netflix" is negative, so it is not
    within the range the host accepts for an Identifier. *)
Lemma hashCode_outside_host_range :
  hashCode (of_string "Netflix") = -787338382 /\
  ~ host_identifier_ok (hashCode (of_string "Netflix")).
Proof.
  split.
  - vm_compute. reflexivity.
  - intros [Hlo _]. vm_compute in Hlo. now apply Hlo.
Qed.

(** C4 (amended): for every string [s], [hashCode s] is a signed 32-bit
    integer, that is [- 2^31 <= hashCode s <= 2^31 - 1], and it is the
    rolling hash "times 31 plus the code unit", wrapped to 32 bits at each
    character; it is within the range the host accepts for an Identifier
    exactly when it is not negative. *)
Theorem hashCode_int32_range (s : jsstring) :
  - 2 ^ 31 <= hashCode s <= 2 ^ 31 - 1 /\
  hashCode s = rolling31_spec s /\
  (host_identifier_ok (hashCode s) <-> 0 <= hashCode s).
Proof.
  pose proof (fold_hashStep_range s 0 zero_is_int32) as Hrange.
  fold (hashCode s) in Hrange. unfold is_int32 in Hrange.
  split; [exact Hrange | split].
  - apply (fold_hashStep_mul31 s 0 zero_is_int32).
  - unfold host_identifier_ok. split.
    + intros [Hlo _]. exact Hlo.
    + intros Hlo. split; [exact Hlo|].
      apply Z.le_trans with (2 ^ 31 - 1); [apply Hrange|].
      vm_compute. discriminate.
Qed.

Lemma hashCode_int32_range_witness :
  host_identifier_ok (hashCode (of_string "12")).
Proof.
  apply (proj2 (proj2 (hashCode_int32_range (of_string "12")))).
  vm_compute. discriminate.
Defined.

(** ** String equality and membership *)

Lemma of_string_wf s : wf_jsstring (of_string s).
Proof.
  induction s as [|c s IH]; simpl; constructor; [|exact IH].
  unfold code_unit_ok. pose proof (N_ascii_bounded c). lia.
Qed.

Lemma str_eqb_eq a b : str_eqb a b = true <-> a = b.
Proof.
  unfold str_eqb. destruct (jsstring_dec a b); split; congruence.
Qed.

Lemma str_eqb_neq a b : str_eqb a b = false <-> a <> b.
Proof.
  unfold str_eqb. destruct (jsstring_dec a b); split; congruence.
Qed.

Lemma includes_In xs s : includes xs s = true <-> In s xs.
Proof.
  unfold includes. rewrite existsb_exists. split.
  - intros (y & Hy & Heq). apply str_eqb_eq in Heq. now subst.
  - intros Hin. exists s. split; [exact Hin | now apply str_eqb_eq].
Qed.

(** ** [find] returns the first match *)

Section FindFirst.

Context {A : Type} (f : A -> bool).

Lemma find_first l1 m l2 :
  f m = true -> (forall x, In x l1 -> f x = false) ->
  find f (l1 ++ m :: l2) = Some m.
Proof.
  intros Hm. induction l1 as [|y l1 IH]; intros Hl1; simpl.
  - now rewrite Hm.
  - rewrite (Hl1 y (or_introl eq_refl)). apply IH.
    intros x Hx. apply Hl1. now right.
Qed.

Lemma find_Some_split l m :
  find f l = Some m ->
  exists l1 l2,
    l = l1 ++ m :: l2 /\ f m = true /\ forall x, In x l1 -> f x = false.
Proof.
  induction l as [|y l IH]; simpl; [discriminate|].
  destruct (f y) eqn:Hy.
  - intros [= ->]. exists [], l. repeat split; [exact Hy | intros x []].
  - intros Hfind. destruct (IH Hfind) as (l1 & l2 & -> & Hm & Hl1).
    exists (y :: l1), l2. repeat split; [exact Hm|].
    intros x [<-|Hx]; [exact Hy | now apply Hl1].
Qed.

Lemma find_None_iff l : find f l = None <-> forall x, In x l -> f x = false.
Proof.
  split.
  - intros H x. now apply find_none.
  - induction l as [|y l IH]; intros H; simpl; [reflexivity|].
    rewrite (H y (or_introl eq_refl)). apply IH.
    intros x Hx. apply H. now right.
Qed.

End FindFirst.

(** ** The built index *)

Lemma createMappedApps_id_hash apps m :
  In m (createMappedApps apps) -> id m = hashCode (rokuAppId m).
Proof.
  unfold createMappedApps. rewrite in_map_iff.
  now intros (a & <- & _).
Qed.

Lemma createMappedApps_app l1 l2 :
  createMappedApps (l1 ++ l2) = createMappedApps l1 ++ createMappedApps l2.
Proof. apply map_app. Qed.

Lemma createMappedApps_nth apps n :
  nth_error (createMappedApps apps) n =
  match nth_error apps n with
  | Some r => asMappedApp r
  | None => None
  end.
Proof.
  unfold createMappedApps at 1. rewrite nth_error_map.
  now destruct (nth_error apps n).
Qed.

(** ** Round trip and first-entry-wins *)

(** C1, as stated, fails: in the index built from the records "Aa" and "BB"
    the entry for "BB" is in the index, yet looking its numeric id up
    returns the entry for "Aa". *)
Lemma roundtrip_fails_on_colliding_ids :
  In mappedBB (getApps (new_RokuAppMap [appAa; appBB])) /\
  getAppFromId (new_RokuAppMap [appAa; appBB]) (id mappedBB) = Some mappedAa /\
  getAppFromId (new_RokuAppMap [appAa; appBB]) (id mappedBB) <> Some mappedBB.
Proof.
  split; [|split].
  - right. left. reflexivity.
  - reflexivity.
  - discriminate.
Qed.

(** C1 (amended): for every list of raw records and every entry [m] of the
    built index, [getAppFromId (id m)] returns [m] when no entry before [m]
    in build order has the same numeric id, and
    [getAppFromRokuId (rokuAppId m)] returns [m] when no entry before [m]
    has the same native id; this covers the synthesized home entry. *)
Theorem roundtrip_first_occurrence
  (apps : list RokuApp) (l1 l2 : list MappedApp) (m : MappedApp) :
  getApps (new_RokuAppMap apps) = l1 ++ m :: l2 ->
  ((forall x, In x l1 -> id x <> id m) ->
   getAppFromId (new_RokuAppMap apps) (id m) = Some m) /\
  ((forall x, In x l1 -> rokuAppId x <> rokuAppId m) ->
   getAppFromRokuId (new_RokuAppMap apps) (rokuAppId m) = Some m).
Proof.
  intros Hidx. unfold getAppFromId, getAppFromRokuId.
  unfold getApps in Hidx. rewrite Hidx. split; intros Hfresh.
  - apply find_first.
    + apply Z.eqb_refl.
    + intros x Hx. apply Z.eqb_neq. now apply Hfresh.
  - apply find_first.
    + now apply str_eqb_eq.
    + intros x Hx. apply str_eqb_neq. now apply Hfresh.
Qed.

Lemma roundtrip_first_occurrence_witness :
  getAppFromId
    (new_RokuAppMap [appNetflix; Platform.homeApp (of_string "home.id")])
    (id mappedHome) = Some mappedHome /\
  getAppFromRokuId
    (new_RokuAppMap [appNetflix; Platform.homeApp (of_string "home.id")])
    (rokuAppId mappedHome) = Some mappedHome.
Proof.
  pose proof (roundtrip_first_occurrence
                [appNetflix; Platform.homeApp (of_string "home.id")]
                [mappedNetflix] [] mappedHome eq_refl) as [Hid Hnative].
  split.
  - apply Hid. intros x [<-|[]]. simpl. discriminate.
  - apply Hnative. intros x [<-|[]]. simpl. discriminate.
Defined.

(** C10: a lookup returns [m] exactly when [m] is the first entry in build
    order whose key matches, for numeric and for native ids alike; so among
    several entries with one key the first wins. *)
Theorem lookup_first_entry_wins (apps : list RokuApp) :
  (forall k m,
      getAppFromId (new_RokuAppMap apps) k = Some m <->
      exists l1 l2,
        getApps (new_RokuAppMap apps) = l1 ++ m :: l2 /\
        id m = k /\ forall x, In x l1 -> id x <> k) /\
  (forall s m,
      getAppFromRokuId (new_RokuAppMap apps) s = Some m <->
      exists l1 l2,
        getApps (new_RokuAppMap apps) = l1 ++ m :: l2 /\
        rokuAppId m = s /\ forall x, In x l1 -> rokuAppId x <> s).
Proof.
  unfold getAppFromId, getAppFromRokuId, getApps. split.
  - intros k m. split.
    + intros Hfind. apply find_Some_split in Hfind.
      destruct Hfind as (l1 & l2 & Hl & Hm & Hl1).
      exists l1, l2. repeat split; [exact Hl | now apply Z.eqb_eq |].
      intros x Hx. apply Z.eqb_neq. now apply Hl1.
    + intros (l1 & l2 & -> & Hm & Hl1). apply find_first.
      * now apply Z.eqb_eq.
      * intros x Hx. apply Z.eqb_neq. now apply Hl1.
  - intros s m. split.
    + intros Hfind. apply find_Some_split in Hfind.
      destruct Hfind as (l1 & l2 & Hl & Hm & Hl1).
      exists l1, l2. repeat split; [exact Hl | now apply str_eqb_eq |].
      intros x Hx. apply str_eqb_neq. now apply Hl1.
    + intros (l1 & l2 & -> & Hm & Hl1). apply find_first.
      * now apply str_eqb_eq.
      * intros x Hx. apply str_eqb_neq. now apply Hl1.
Qed.

Lemma lookup_first_entry_wins_witness :
  getAppFromId (new_RokuAppMap [appAa; appBB]) 2112 = Some mappedAa /\
  getAppFromRokuId (new_RokuAppMap [appAa; appBB; appAaAgain]) (of_string "Aa")
  = Some mappedAa.
Proof.
  split.
  - apply (proj1 (lookup_first_entry_wins [appAa; appBB])).
    exists [], [mappedBB]. repeat split. intros x [].
  - apply (proj2 (lookup_first_entry_wins [appAa; appBB; appAaAgain])).
    exists [], [mappedBB; mappedAaAgain]. repeat split. intros x [].
Defined.

(** ** The session index: fetched applications plus the Home entry *)

Section SessionIndex.

Context {RokuClient RokuDeviceInfo : Type}.
Variable homeScreenActiveId : jsstring.
Variable rokuClient : RokuClient.
Variable deviceInfo : RokuDeviceInfo.

Local Notation "'session' a" :=
  (Accessory.sessionIndex homeScreenActiveId rokuClient deviceInfo a)
  (at level 10, a at level 9, only parsing).

Lemma session_index fetchedApps :
  getApps (session fetchedApps) =
  createMappedApps fetchedApps
  ++ createMappedApps [Platform.homeApp homeScreenActiveId].
Proof. apply createMappedApps_app. Qed.

(** C2: whatever the device reported, the empty list included, looking up
    [homeScreenActiveId] by native id in the session index returns an entry,
    and that entry carries the native id [homeScreenActiveId]. *)
Theorem home_lookup_succeeds (fetchedApps : list RokuApp) :
  exists m,
    getAppFromRokuId (session fetchedApps) homeScreenActiveId = Some m /\
    rokuAppId m = homeScreenActiveId /\
    In m (getApps (session fetchedApps)).
Proof.
  destruct (getAppFromRokuId (session fetchedApps) homeScreenActiveId)
    as [m|] eqn:Hfind.
  - exists m. unfold getAppFromRokuId in Hfind.
    destruct (find_some _ _ Hfind) as [Hin Heq].
    apply str_eqb_eq in Heq. now repeat split.
  - exfalso. unfold getAppFromRokuId in Hfind.
    rewrite find_None_iff in Hfind.
    fold (getApps (session fetchedApps)) in Hfind.
    rewrite session_index in Hfind.
    assert (Hhome : In (mkMappedApp (hashCode homeScreenActiveId)
                          homeScreenActiveId (of_string "Home")
                          (of_string "Home") (of_string "1"))
                       (createMappedApps fetchedApps ++
                        createMappedApps [Platform.homeApp homeScreenActiveId])).
    { apply in_or_app. right. left. reflexivity. }
    specialize (Hfind _ Hhome). simpl in Hfind.
    apply str_eqb_neq in Hfind. now apply Hfind.
Qed.

(** C5: the session index built from [n] fetched records has exactly
    [n + 1] entries; its entry at each position is the mapped form of the
    record at that position of "fetched records, then Home", nothing being
    merged or dropped, whether or not numeric ids collide. *)
Theorem index_complete_in_order (fetchedApps : list RokuApp) :
  List.length (getApps (session fetchedApps))
  = (List.length fetchedApps + 1)%nat /\
  map rokuAppId (getApps (session fetchedApps)) =
    map app_id fetchedApps ++ [homeScreenActiveId] /\
  forall n,
    nth_error (getApps (session fetchedApps)) n =
    match nth_error (fetchedApps ++ [Platform.homeApp homeScreenActiveId]) n
    with
    | Some r => asMappedApp r
    | None => None
    end.
Proof.
  split; [|split].
  - rewrite session_index, length_app. unfold createMappedApps.
    now rewrite length_map.
  - rewrite session_index, map_app. unfold createMappedApps.
    rewrite !map_map. reflexivity.
  - intros n. apply createMappedApps_nth.
Qed.

End SessionIndex.

(** ** Lookups that miss *)

(** C6: a numeric id that no entry of the index carries makes
    [getAppFromId] return the absent result, a native id that no entry
    carries makes [getAppFromRokuId] return the absent result, and for
    every input whatsoever a lookup either returns an entry of the index
    with the requested key or returns the absent result: there is no third
    outcome. *)
Theorem lookup_not_found (apps : list RokuApp) :
  (forall k,
      ~ In k (map id (getApps (new_RokuAppMap apps))) ->
      getAppFromId (new_RokuAppMap apps) k = None) /\
  (forall s,
      ~ In s (map rokuAppId (getApps (new_RokuAppMap apps))) ->
      getAppFromRokuId (new_RokuAppMap apps) s = None) /\
  (forall k,
      match getAppFromId (new_RokuAppMap apps) k with
      | Some m => In m (getApps (new_RokuAppMap apps)) /\ id m = k
      | None => ~ In k (map id (getApps (new_RokuAppMap apps)))
      end) /\
  (forall s,
      match getAppFromRokuId (new_RokuAppMap apps) s with
      | Some m =>
          In m (getApps (new_RokuAppMap apps)) /\
          rokuAppId m = s /\ id m = hashCode s
      | None => ~ In s (map rokuAppId (getApps (new_RokuAppMap apps)))
      end).
Proof.
  unfold getAppFromId, getAppFromRokuId, getApps.
  set (idx := mappedApps (new_RokuAppMap apps)).
  repeat split.
  - intros k Hk. apply find_None_iff. intros x Hx. apply Z.eqb_neq.
    intros <-. apply Hk. now apply in_map.
  - intros s Hs. apply find_None_iff. intros x Hx. apply str_eqb_neq.
    intros <-. apply Hs. now apply in_map.
  - intros k. destruct (find _ idx) as [m|] eqn:Hfind.
    + destruct (find_some _ _ Hfind) as [Hin Heq].
      split; [exact Hin | now apply Z.eqb_eq].
    + rewrite in_map_iff. intros (x & <- & Hx).
      pose proof (find_none _ _ Hfind x Hx) as Hne. simpl in Hne.
      now rewrite Z.eqb_refl in Hne.
  - intros s. destruct (find _ idx) as [m|] eqn:Hfind.
    + destruct (find_some _ _ Hfind) as [Hin Heq].
      apply str_eqb_eq in Heq. repeat split; [exact Hin | exact Heq |].
      rewrite <- Heq. now apply (createMappedApps_id_hash apps).
    + rewrite in_map_iff. intros (x & <- & Hx).
      pose proof (find_none _ _ Hfind x Hx) as Hne. simpl in Hne.
      apply str_eqb_neq in Hne. now apply Hne.
Qed.

Lemma lookup_not_found_witness :
  getAppFromId (new_RokuAppMap [appNetflix; appAa]) 7 = None /\
  getAppFromRokuId (new_RokuAppMap [appNetflix; appAa]) (of_string "BB")
  = None.
Proof.
  destruct (lookup_not_found [appNetflix; appAa]) as (Hid & Hnative & _).
  split.
  - apply Hid. simpl. intros [H|[H|[]]]; discriminate H.
  - apply Hnative. simpl. intros [H|[H|[]]]; discriminate H.
Defined.

(** ** Fields of a mapped application *)

(** C7: the mapped form of a record [r] has [rokuAppId] equal to the
    record's id, [id] equal to [hashCode] of it, and the record's name,
    type and version; this holds for [asMappedApp] and for the entry that
    [createMappedApps] produces at the record's position. *)
Theorem mapped_fields_copied (apps : list RokuApp) (n : nat) (r : RokuApp) :
  nth_error apps n = Some r ->
  exists m,
    nth_error (createMappedApps apps) n = Some m /\
    asMappedApp r = Some m /\
    rokuAppId m = app_id r /\
    id m = hashCode (app_id r) /\
    name m = app_name r /\
    type m = app_type r /\
    version m = app_version r.
Proof.
  intros Hn. rewrite createMappedApps_nth, Hn.
  unfold asMappedApp. simpl. eexists. repeat split.
Qed.

Lemma mapped_fields_copied_witness :
  exists m,
    nth_error (createMappedApps [appAa; appNetflix]) 1 = Some m /\
    asMappedApp appNetflix = Some m /\
    rokuAppId m = of_string "12" /\
    id m = hashCode (of_string "12") /\
    name m = of_string "Netflix" /\
    type m = of_string "appl" /\
    version m = of_string "1".
Proof.
  exact (mapped_fields_copied [appAa; appNetflix] 1 appNetflix eq_refl).
Defined.

(** ** The index is read-only *)

Lemma invoke_frame c this : snd (invoke c this) = this.
Proof. destruct c; reflexivity. Qed.

Lemma invoke_all_unfold c cs this :
  invoke_all (c :: cs) this =
  (fst (invoke c this) :: fst (invoke_all cs (snd (invoke c this))),
   snd (invoke_all cs (snd (invoke c this)))).
Proof.
  simpl. unfold bind, ret.
  destruct (invoke c this) as [v this1]. cbn [fst snd].
  destruct (invoke_all cs this1) as [vs this2]. reflexivity.
Qed.

(** C8: after any sequence of method calls on a built index the object is
    the one the constructor produced; each call returns what it would
    return on the freshly built index, and [getApps] returns the whole
    index, in build order, every time. *)
Theorem index_never_mutated (apps : list RokuApp) (calls : list Call) :
  snd (invoke_all calls (new_RokuAppMap apps)) = new_RokuAppMap apps /\
  fst (invoke_all calls (new_RokuAppMap apps)) =
    map (fun c => fst (invoke c (new_RokuAppMap apps))) calls /\
  fst (invoke CallGetApps (new_RokuAppMap apps)) =
    VApps (createMappedApps apps).
Proof.
  set (this := new_RokuAppMap apps).
  split; [|split]; [| |reflexivity].
  - induction calls as [|c cs IH]; [reflexivity|].
    rewrite invoke_all_unfold. simpl. now rewrite invoke_frame.
  - induction calls as [|c cs IH]; [reflexivity|].
    rewrite invoke_all_unfold. simpl. now rewrite invoke_frame, IH.
Qed.

(** ** Excluded applications *)

Lemma filter_Subseq {A : Type} (f : A -> bool) (l : list A) :
  Subseq (filter f l) l.
Proof.
  induction l as [|x l IH]; simpl.
  - constructor.
  - destruct (f x); now constructor.
Qed.

(** C9: for every list of excluded names and every index, the applications
    configured as inputs contain no application with an excluded name,
    contain every application of the index whose name is not excluded, and
    are the index with the excluded entries erased, build order kept. *)
Theorem exclusion_filter_exact
  (this : RokuAppMap) (excludedApps : list jsstring) :
  (forall m,
      In m (Accessory.configuredInputApps this excludedApps) ->
      ~ In (name m) excludedApps) /\
  (forall m,
      In m (getApps this) -> ~ In (name m) excludedApps ->
      In m (Accessory.configuredInputApps this excludedApps)) /\
  Subseq (Accessory.configuredInputApps this excludedApps) (getApps this).
Proof.
  unfold Accessory.configuredInputApps. split; [|split].
  - intros m Hm. apply filter_In in Hm. destruct Hm as [_ Hkeep].
    apply negb_true_iff in Hkeep. intros Hin.
    apply includes_In in Hin. congruence.
  - intros m Hm Hout. apply filter_In. split; [exact Hm|].
    apply negb_true_iff. destruct (includes excludedApps (name m)) eqn:Hinc.
    + apply includes_In in Hinc. contradiction.
    + reflexivity.
  - apply filter_Subseq.
Qed.

Lemma exclusion_filter_exact_witness :
  ~ In (name mappedHome) [of_string "Netflix"] /\
  In mappedHome
     (Accessory.configuredInputApps
        (new_RokuAppMap [appNetflix; Platform.homeApp (of_string "home.id")])
        [of_string "Netflix"]).
Proof.
  pose proof (exclusion_filter_exact
                (new_RokuAppMap
                   [appNetflix; Platform.homeApp (of_string "home.id")])
                [of_string "Netflix"]) as (Hnone & Hall & _).
  assert (Hin : In mappedHome
                   (getApps (new_RokuAppMap
                      [appNetflix; Platform.homeApp (of_string "home.id")]))).
  { right. left. reflexivity. }
  assert (Hname : ~ In (name mappedHome) [of_string "Netflix"]).
  { simpl. intros [H|[]]. discriminate H. }
  split.
  - apply Hnone. now apply Hall.
  - now apply Hall.
Defined.

(** ** Determinism of the numeric id *)

Lemma reduce_returns_fold s a : reduce_returns (a, s) (fold_left hashStep s a).
Proof.
  revert a. induction s as [|b s IH]; intros a; simpl.
  - constructor.
  - eapply reduce_more; [constructor | apply IH].
Qed.

Lemma reduce_returns_inv s a z :
  reduce_returns (a, s) z -> z = fold_left hashStep s a.
Proof.
  intros Hrun. remember (a, s) as c eqn:Hc. revert a s Hc.
  induction Hrun as [a0 | c c' z Hstep _ IH]; intros a s Hc.
  - now inversion Hc.
  - subst c. inversion Hstep; subst. simpl. now apply IH.
Qed.

(** C3: for every string [s] a call [hashCode(s)] returns, any two calls
    return the same integer, and the numeric id of a mapped application is
    that integer whatever the other fields of its record and whatever the
    list and position it is mapped in. *)
Theorem hashCode_deterministic (s : jsstring) :
  hashCode_returns s (hashCode s) /\
  (forall z1 z2,
      hashCode_returns s z1 -> hashCode_returns s z2 -> z1 = z2) /\
  (forall apps1 apps2 n1 n2 r1 r2,
      nth_error apps1 n1 = Some r1 -> nth_error apps2 n2 = Some r2 ->
      app_id r1 = s -> app_id r2 = s ->
      exists m1 m2,
        nth_error (createMappedApps apps1) n1 = Some m1 /\
        nth_error (createMappedApps apps2) n2 = Some m2 /\
        id m1 = hashCode s /\ id m2 = hashCode s).
Proof.
  split; [|split].
  - apply reduce_returns_fold.
  - intros z1 z2 H1 H2.
    apply reduce_returns_inv in H1. apply reduce_returns_inv in H2.
    congruence.
  - intros apps1 apps2 n1 n2 r1 r2 Hn1 Hn2 Hr1 Hr2.
    rewrite !createMappedApps_nth, Hn1, Hn2. unfold asMappedApp. simpl.
    do 2 eexists. repeat split; simpl; congruence.
Qed.

Lemma hashCode_deterministic_witness :
  1569 = hashCode (of_string "12") /\
  exists m1 m2,
    nth_error (createMappedApps [appNetflix]) 0 = Some m1 /\
    nth_error (createMappedApps [appAa; appNetflix]) 1 = Some m2 /\
    id m1 = hashCode (of_string "12") /\ id m2 = hashCode (of_string "12").
Proof.
  destruct (hashCode_deterministic (of_string "12")) as (Hret & Huniq & Hid).
  split.
  - apply Huniq; [|exact Hret].
    unfold hashCode_returns.
    eapply reduce_more; [constructor|].
    eapply reduce_more; [constructor|].
    apply reduce_done.
  - apply (Hid [appNetflix] [appAa; appNetflix] 0%nat 1%nat
               appNetflix appNetflix); reflexivity.
Defined.

(** * Further properties of the code *)

(** ** The hash as a polynomial in 31 *)

Lemma to_int32_add_r u v : to_int32 (u + to_int32 v) = to_int32 (u + v).
Proof.
  destruct (to_int32_decomp v) as [k Hk]. rewrite Hk.
  apply (to_int32_congr _ _ k). ring.
Qed.

Lemma to_int32_mul31_add a c :
  to_int32 (to_int32 a * 31 + c) = to_int32 (a * 31 + c).
Proof.
  destruct (to_int32_decomp a) as [k Hk]. rewrite Hk.
  apply (to_int32_congr _ _ (k * 31)). ring.
Qed.

Lemma fold_left_cons {A B : Type} (f : A -> B -> A) x l a :
  fold_left f (x :: l) a = fold_left f l (f a x).
Proof. reflexivity. Qed.

Lemma fold_hashStep_poly31 s a :
  fold_left hashStep s (to_int32 a) = to_int32 (poly31 s a).
Proof.
  revert a. induction s as [|c s IH]; intros a.
  - reflexivity.
  - unfold poly31. rewrite !fold_left_cons.
    rewrite (hashStep_mul31 _ c (to_int32_range a)), to_int32_mul31_add.
    apply IH.
Qed.

Lemma poly31_app s t a : poly31 (s ++ t) a = poly31 t (poly31 s a).
Proof. apply fold_left_app. Qed.

Lemma poly31_shift s a :
  poly31 s a = a * 31 ^ Z.of_nat (List.length s) + poly31 s 0.
Proof.
  revert a. induction s as [|c s IH]; intros a.
  - simpl. ring.
  - cbn [poly31 fold_left List.length]. fold (poly31 s (a * 31 + c)).
    fold (poly31 s (0 * 31 + c)).
    rewrite (IH (a * 31 + c)), (IH (0 * 31 + c)).
    rewrite Nat2Z.inj_succ, Z.pow_succ_r by lia. ring.
Qed.

(** X1: wrapping can be postponed to the end: [hashCode s] is the value of
    the polynomial with the code units of [s] as coefficients at 31,
    reduced once to a signed 32-bit integer. *)
Theorem hashCode_polynomial (s : jsstring) :
  hashCode s = to_int32 (poly31 s 0).
Proof.
  unfold hashCode. change 0 with (to_int32 0) at 1.
  apply fold_hashStep_poly31.
Qed.

Lemma hashCode_app s t :
  hashCode (s ++ t) = to_int32 (poly31 t (hashCode s)).
Proof.
  rewrite hashCode_polynomial, poly31_app, (poly31_shift t (poly31 s 0)).
  rewrite (poly31_shift t (hashCode s)), hashCode_polynomial.
  destruct (to_int32_decomp (poly31 s 0)) as [k Hk]. rewrite Hk.
  symmetry. apply (to_int32_congr _ _ (k * 31 ^ Z.of_nat (List.length t))).
  ring.
Qed.

(** X2: collisions survive any context: two strings of one length with
    the same hash still have the same hash after a common prefix is put
    before them and a common suffix after them. *)
Theorem hashCode_collision_in_context (x y p q : jsstring) :
  List.length x = List.length y ->
  hashCode x = hashCode y ->
  hashCode (p ++ x ++ q) = hashCode (p ++ y ++ q).
Proof.
  intros Hlen Hxy.
  rewrite !app_assoc, (hashCode_app (p ++ x) q), (hashCode_app (p ++ y) q).
  f_equal. f_equal.
  rewrite (hashCode_app p x), (hashCode_app p y).
  rewrite (poly31_shift x (hashCode p)), (poly31_shift y (hashCode p)).
  rewrite Hlen.
  rewrite <- (to_int32_add_r _ (poly31 x 0)), <- (to_int32_add_r _ (poly31 y 0)).
  rewrite <- !hashCode_polynomial. now rewrite Hxy.
Qed.

Lemma hashCode_collision_in_context_witness :
  hashCode (of_string "tvAa1") = hashCode (of_string "tvBB1").
Proof.
  exact (hashCode_collision_in_context
           (of_string "Aa") (of_string "BB") (of_string "tv") (of_string "1")
           eq_refl eq_refl).
Defined.

(** ** Decimal native ids do not collide *)

Lemma poly31_snoc s c a : poly31 (s ++ [c]) a = poly31 s a * 31 + c.
Proof. now rewrite poly31_app. Qed.

Lemma poly31_digits_bound s :
  digit_string s ->
  0 <= poly31 s 0 /\ poly31 s 0 + 2 <= 2 * 31 ^ Z.of_nat (List.length s).
Proof.
  unfold digit_string. induction s as [|c s IH] using rev_ind; intros Hs.
  - simpl. lia.
  - apply Forall_app in Hs. destruct Hs as [Hs Hc].
    inversion Hc as [|? ? Hd _]; subst. unfold is_digit in Hd.
    specialize (IH Hs). rewrite poly31_snoc, length_app. simpl List.length.
    replace (Z.of_nat (List.length s + 1)) with (Z.succ (Z.of_nat (List.length s)))
      by lia.
    rewrite Z.pow_succ_r by lia. lia.
Qed.

Lemma poly31_digits_inj s t :
  digit_string s -> digit_string t -> poly31 s 0 = poly31 t 0 -> s = t.
Proof.
  unfold digit_string. revert t.
  induction s as [|c s IH] using rev_ind;
    intros t; destruct t as [|d t _] using rev_ind; intros Hs Ht Heq.
  - reflexivity.
  - exfalso. apply Forall_app in Ht. destruct Ht as [Ht Hd].
    inversion Hd as [|? ? Hd' _]; subst. unfold is_digit in Hd'.
    rewrite poly31_snoc in Heq.
    pose proof (poly31_digits_bound t Ht). simpl in Heq. lia.
  - exfalso. apply Forall_app in Hs. destruct Hs as [Hs Hc].
    inversion Hc as [|? ? Hc' _]; subst. unfold is_digit in Hc'.
    rewrite poly31_snoc in Heq.
    pose proof (poly31_digits_bound s Hs). simpl in Heq. lia.
  - apply Forall_app in Hs. destruct Hs as [Hs Hc].
    apply Forall_app in Ht. destruct Ht as [Ht Hd].
    inversion Hc as [|? ? Hc' _]; subst. unfold is_digit in Hc'.
    inversion Hd as [|? ? Hd' _]; subst. unfold is_digit in Hd'.
    rewrite !poly31_snoc in Heq.
    assert (Hp : poly31 s 0 = poly31 t 0) by lia.
    assert (Hcd : c = d) by lia.
    rewrite (IH t Hs Ht Hp), Hcd. reflexivity.
Qed.

Lemma hashCode_short_digits s :
  digit_string s -> (List.length s <= 6)%nat -> hashCode s = poly31 s 0.
Proof.
  intros Hs Hlen. rewrite hashCode_polynomial. apply to_int32_id.
  destruct (poly31_digits_bound s Hs) as [Hlo Hhi].
  assert (Hpow : 31 ^ Z.of_nat (List.length s) <= 31 ^ 6).
  { apply Z.pow_le_mono_r; lia. }
  unfold is_int32. change (31 ^ 6) with 887503681 in Hpow.
  change (2 ^ 31) with 2147483648. lia.
Qed.

(** X3: two native ids made of at most six decimal digits each have the
    same numeric id only if they are the same string; in this range the
    32-bit wrap never happens. *)
Theorem hashCode_injective_on_short_digit_ids (s t : jsstring) :
  digit_string s -> digit_string t ->
  (List.length s <= 6)%nat -> (List.length t <= 6)%nat ->
  hashCode s = hashCode t -> s = t.
Proof.
  intros Hs Ht Hls Hlt Heq.
  rewrite (hashCode_short_digits s Hs Hls) in Heq.
  rewrite (hashCode_short_digits t Ht Hlt) in Heq.
  now apply poly31_digits_inj.
Qed.

Lemma hashCode_injective_on_short_digit_ids_witness :
  of_string "837" = of_string "837".
Proof.
  apply hashCode_injective_on_short_digit_ids.
  - repeat (apply Forall_cons; [unfold is_digit; simpl; lia|]).
    apply Forall_nil.
  - repeat (apply Forall_cons; [unfold is_digit; simpl; lia|]).
    apply Forall_nil.
  - simpl. lia.
  - simpl. lia.
  - reflexivity.
Defined.

(** ** Indexes without collisions *)

Lemma createMappedApps_ids apps :
  map id (createMappedApps apps) = map hashCode (map app_id apps).
Proof. unfold createMappedApps. now rewrite !map_map. Qed.

Lemma createMappedApps_rokuAppIds apps :
  map rokuAppId (createMappedApps apps) = map app_id apps.
Proof. unfold createMappedApps. now rewrite map_map. Qed.

Lemma lookup_exact_of_NoDup apps m :
  NoDup (map id (createMappedApps apps)) ->
  In m (createMappedApps apps) ->
  getAppFromId (new_RokuAppMap apps) (id m) = Some m /\
  getAppFromRokuId (new_RokuAppMap apps) (rokuAppId m) = Some m.
Proof.
  intros Hnodup Hin. unfold getAppFromId, getAppFromRokuId. simpl mappedApps.
  destruct (in_split _ _ Hin) as (l1 & l2 & Hsplit).
  assert (Hfresh : forall x, In x l1 -> id x <> id m).
  { intros x Hx Heq. rewrite Hsplit, map_app in Hnodup. simpl in Hnodup.
    apply NoDup_remove_2 in Hnodup. apply Hnodup.
    apply in_or_app. left. rewrite <- Heq. now apply in_map. }
  assert (Hl1 : forall x, In x l1 -> In x (createMappedApps apps)).
  { intros x Hx. rewrite Hsplit. apply in_or_app. now left. }
  rewrite Hsplit. split; apply find_first.
  - apply Z.eqb_refl.
  - intros x Hx. apply Z.eqb_neq. now apply Hfresh.
  - now apply str_eqb_eq.
  - intros x Hx. apply str_eqb_neq. intros Heq. apply (Hfresh x Hx).
    rewrite (createMappedApps_id_hash apps x (Hl1 x Hx)).
    rewrite (createMappedApps_id_hash apps m Hin). now rewrite Heq.
Qed.

(** X4: in an index whose numeric ids are pairwise distinct, looking an
    entry up by its numeric id or by its native id returns that very
    entry, for every entry of the index. *)
Theorem roundtrip_when_ids_distinct (apps : list RokuApp) (m : MappedApp) :
  NoDup (map id (getApps (new_RokuAppMap apps))) ->
  In m (getApps (new_RokuAppMap apps)) ->
  getAppFromId (new_RokuAppMap apps) (id m) = Some m /\
  getAppFromRokuId (new_RokuAppMap apps) (rokuAppId m) = Some m.
Proof. apply lookup_exact_of_NoDup. Qed.

Lemma roundtrip_when_ids_distinct_witness :
  getAppFromId (new_RokuAppMap [appNetflix; appBB]) (id mappedBB)
  = Some mappedBB /\
  getAppFromRokuId (new_RokuAppMap [appNetflix; appBB]) (rokuAppId mappedBB)
  = Some mappedBB.
Proof.
  apply roundtrip_when_ids_distinct.
  - simpl. constructor.
    + intros [H|[]]. discriminate H.
    + constructor; [intros [] | constructor].
  - right. left. reflexivity.
Defined.

Lemma short_digit_ids_NoDup apps :
  Forall (fun a => digit_string (app_id a) /\ (List.length (app_id a) <= 6)%nat)
         apps ->
  NoDup (map app_id apps) ->
  NoDup (map id (createMappedApps apps)).
Proof.
  intros Hdigits Hnodup. rewrite createMappedApps_ids.
  apply NoDup_map_NoDup_ForallPairs; [|exact Hnodup].
  intros s t Hs Ht Heq.
  rewrite Forall_forall in Hdigits.
  apply in_map_iff in Hs. destruct Hs as (a & <- & Ha).
  apply in_map_iff in Ht. destruct Ht as (b & <- & Hb).
  destruct (Hdigits a Ha) as [Hda Hla]. destruct (Hdigits b Hb) as [Hdb Hlb].
  now apply hashCode_injective_on_short_digit_ids.
Qed.

Lemma getAppFromRokuId_Some apps s m :
  getAppFromRokuId (new_RokuAppMap apps) s = Some m ->
  In m (createMappedApps apps) /\ rokuAppId m = s /\ id m = hashCode s.
Proof.
  unfold getAppFromRokuId. simpl mappedApps. intros Hfind.
  destruct (find_some _ _ Hfind) as [Hin Heq]. apply str_eqb_eq in Heq.
  repeat split; [exact Hin | exact Heq |].
  rewrite <- Heq. now apply (createMappedApps_id_hash apps).
Qed.

Lemma getAppFromRokuId_None apps s :
  getAppFromRokuId (new_RokuAppMap apps) s = None ->
  ~ In s (map app_id apps).
Proof.
  unfold getAppFromRokuId. simpl mappedApps. intros Hfind Hin.
  rewrite <- createMappedApps_rokuAppIds in Hin.
  apply in_map_iff in Hin. destruct Hin as (x & <- & Hx).
  pose proof (find_none _ _ Hfind x Hx) as Hne. simpl in Hne.
  apply str_eqb_neq in Hne. now apply Hne.
Qed.

Lemma getAppFromRokuId_In apps s :
  In s (map app_id apps) ->
  exists m, getAppFromRokuId (new_RokuAppMap apps) s = Some m.
Proof.
  intros Hin. destruct (getAppFromRokuId (new_RokuAppMap apps) s) eqn:Hfind.
  - now eexists.
  - now apply getAppFromRokuId_None in Hfind.
Qed.

Lemma getAppFromId_Some apps k m :
  getAppFromId (new_RokuAppMap apps) k = Some m ->
  In m (createMappedApps apps) /\ id m = k.
Proof.
  unfold getAppFromId. simpl mappedApps. intros Hfind.
  destruct (find_some _ _ Hfind) as [Hin Heq]. apply Z.eqb_eq in Heq.
  now split.
Qed.

Lemma getAppFromId_None apps k :
  getAppFromId (new_RokuAppMap apps) k = None ->
  ~ In k (map hashCode (map app_id apps)).
Proof.
  unfold getAppFromId. simpl mappedApps. intros Hfind Hin.
  rewrite <- createMappedApps_ids in Hin.
  apply in_map_iff in Hin. destruct Hin as (x & <- & Hx).
  pose proof (find_none _ _ Hfind x Hx) as Hne. simpl in Hne.
  now rewrite Z.eqb_refl in Hne.
Qed.

(** X5: on a device whose applications have pairwise distinct native ids of
    at most six decimal digits, none of which hashes to the numeric id of
    the Home entry, every entry of the session index, the Home entry
    included, is returned by the lookup of its numeric id and by the lookup
    of its native id. *)
Theorem session_roundtrip_for_short_digit_ids
  {RokuClient RokuDeviceInfo : Type}
  (homeScreenActiveId : jsstring) (rokuClient : RokuClient)
  (deviceInfo : RokuDeviceInfo) (fetchedApps : list RokuApp)
  (m : MappedApp) :
  Forall (fun a => digit_string (app_id a) /\ (List.length (app_id a) <= 6)%nat)
         fetchedApps ->
  NoDup (map app_id fetchedApps) ->
  ~ In (hashCode homeScreenActiveId) (map hashCode (map app_id fetchedApps)) ->
  In m (getApps (Accessory.sessionIndex homeScreenActiveId rokuClient
                                        deviceInfo fetchedApps)) ->
  getAppFromId
    (Accessory.sessionIndex homeScreenActiveId rokuClient deviceInfo
                            fetchedApps) (id m) = Some m /\
  getAppFromRokuId
    (Accessory.sessionIndex homeScreenActiveId rokuClient deviceInfo
                            fetchedApps) (rokuAppId m) = Some m.
Proof.
  intros Hdigits Hnodup Hhome Hin.
  apply lookup_exact_of_NoDup; [|exact Hin].
  unfold Platform.createClientInfoFromClient. simpl Platform.apps.
  rewrite createMappedApps_app, map_app. apply NoDup_app.
  - now apply short_digit_ids_NoDup.
  - simpl. constructor; [intros [] | constructor].
  - intros k Hk [Heq|[]]. simpl in Heq. subst k.
    apply Hhome. now rewrite <- createMappedApps_ids.
Qed.

Lemma session_roundtrip_for_short_digit_ids_witness :
  getAppFromId
    (Accessory.sessionIndex (of_string "home.id") tt tt [appNetflix])
    (id mappedHome) = Some mappedHome /\
  getAppFromRokuId
    (Accessory.sessionIndex (of_string "home.id") tt tt [appNetflix])
    (rokuAppId mappedHome) = Some mappedHome.
Proof.
  apply session_roundtrip_for_short_digit_ids.
  - constructor; [|constructor]. split.
    + repeat (apply Forall_cons; [unfold is_digit; simpl; lia|]).
      apply Forall_nil.
    + simpl. lia.
  - simpl. constructor; [intros [] | constructor].
  - vm_compute. intros [H|[]]. discriminate H.
  - right. left. reflexivity.
Defined.

(** ** The ActiveIdentifier handlers *)

Import Handlers.

(** X6: the "get" handler has three outcomes.  With no active application
    it reports the string [homeScreenActiveId].  With an active application
    whose native id is in the index it reports the hash of that id.  With
    an active application that is not in the index a [TypeError] escapes:
    the branch that would report [homeScreenActiveId] for it is never
    reached. *)
Theorem get_active_identifier_outcomes
  (apps : list RokuApp) (homeScreenActiveId : jsstring)
  (rokuApp : option RokuApp) :
  match onGetActiveIdentifier (new_RokuAppMap apps) homeScreenActiveId rokuApp
  with
  | Completed (NumberValue n) =>
      exists r, rokuApp = Some r /\ n = hashCode (app_id r) /\
                In (app_id r) (map app_id apps)
  | Completed (StringValue s) => rokuApp = None /\ s = homeScreenActiveId
  | TypeError =>
      exists r, rokuApp = Some r /\ ~ In (app_id r) (map app_id apps)
  end.
Proof.
  destruct rokuApp as [r|]; simpl; [|now split].
  destruct (getAppFromRokuId (new_RokuAppMap apps) (app_id r)) as [m|] eqn:Hfind;
    simpl.
  - destruct (getAppFromRokuId_Some _ _ _ Hfind) as (Hin & Hroku & Hid).
    exists r. repeat split; [exact Hid|].
    rewrite <- createMappedApps_rokuAppIds, <- Hroku. now apply in_map.
  - exists r. split; [reflexivity|]. now apply getAppFromRokuId_None.
Qed.

(** X7: the "set" handler sends a command only for an identifier that is
    the numeric id of an entry of the index.  It presses HOME only if the
    index has the native id [homeScreenActiveId] and the identifier is its
    hash; it launches only a native id of the index other than
    [homeScreenActiveId], whose hash is the identifier; for any other
    identifier a [TypeError] escapes and nothing is sent. *)
Theorem set_active_identifier_outcomes
  (apps : list RokuApp) (homeScreenActiveId : jsstring) (identifier : Z) :
  match onSetActiveIdentifier (new_RokuAppMap apps) homeScreenActiveId
                              identifier
  with
  | Completed KeypressHome =>
      In homeScreenActiveId (map app_id apps) /\
      hashCode homeScreenActiveId = identifier
  | Completed (Launch s) =>
      s <> homeScreenActiveId /\ In s (map app_id apps) /\
      hashCode s = identifier
  | TypeError => ~ In identifier (map hashCode (map app_id apps))
  end.
Proof.
  unfold onSetActiveIdentifier.
  destruct (getAppFromId (new_RokuAppMap apps) identifier) as [m|] eqn:Hfind;
    simpl.
  - destruct (getAppFromId_Some _ _ _ Hfind) as [Hin Hid].
    pose proof (createMappedApps_id_hash apps m Hin) as Hhash.
    assert (Hraw : In (rokuAppId m) (map app_id apps)).
    { rewrite <- createMappedApps_rokuAppIds. now apply in_map. }
    destruct (str_eqb (rokuAppId m) homeScreenActiveId) eqn:Heq.
    + apply str_eqb_eq in Heq. rewrite <- Heq. split; congruence.
    + apply str_eqb_neq in Heq. repeat split; congruence.
  - now apply getAppFromId_None.
Qed.

(** X8: in an index without collisions, feeding what the "get" handler
    reports for an active application of the index back into the "set"
    handler addresses that same application: HOME is pressed if its native
    id is [homeScreenActiveId], otherwise exactly its native id is
    launched. *)
Theorem get_then_set_same_application
  (apps : list RokuApp) (homeScreenActiveId : jsstring) (r : RokuApp) :
  NoDup (map id (getApps (new_RokuAppMap apps))) ->
  In (app_id r) (map app_id apps) ->
  exists n,
    onGetActiveIdentifier (new_RokuAppMap apps) homeScreenActiveId (Some r)
    = Completed (NumberValue n) /\
    onSetActiveIdentifier (new_RokuAppMap apps) homeScreenActiveId n
    = Completed (if str_eqb (app_id r) homeScreenActiveId
                 then KeypressHome
                 else Launch (app_id r)).
Proof.
  intros Hnodup Hin.
  destruct (getAppFromRokuId_In apps (app_id r) Hin) as [m Hfind].
  destruct (getAppFromRokuId_Some _ _ _ Hfind) as (Hm & Hroku & Hid).
  destruct (lookup_exact_of_NoDup apps m Hnodup Hm) as [Hbyid _].
  exists (id m). unfold onGetActiveIdentifier, onSetActiveIdentifier.
  rewrite Hfind, Hbyid. simpl. rewrite Hroku. split; [reflexivity|].
  now destruct (str_eqb (app_id r) homeScreenActiveId).
Qed.

Lemma get_then_set_same_application_witness :
  exists n,
    onGetActiveIdentifier (new_RokuAppMap [appNetflix; appBB])
                          (of_string "home.id") (Some appBB)
    = Completed (NumberValue n) /\
    onSetActiveIdentifier (new_RokuAppMap [appNetflix; appBB])
                          (of_string "home.id") n
    = Completed (Launch (of_string "BB")).
Proof.
  apply (get_then_set_same_application
           [appNetflix; appBB] (of_string "home.id") appBB).
  - simpl. constructor.
    + intros [H|[]]. discriminate H.
    + constructor; [intros [] | constructor].
  - right. left. reflexivity.
Defined.

(** ** Polling the active application *)

Section SessionPolling.

Context {RokuClient RokuDeviceInfo : Type}.
Variable homeScreenActiveId : jsstring.
Variable rokuClient : RokuClient.
Variable deviceInfo : RokuDeviceInfo.
Variable fetchedApps : list RokuApp.

Local Notation "'session'" :=
  (Accessory.sessionIndex homeScreenActiveId rokuClient deviceInfo
                          fetchedApps) (only parsing).

Lemma session_native_ids :
  map app_id (fetchedApps ++ [Platform.homeApp homeScreenActiveId])
  = map app_id fetchedApps ++ [homeScreenActiveId].
Proof. now rewrite map_app. Qed.

Lemma updateActiveApplication_known s app :
  (match app with Some a => app_id a | None => homeScreenActiveId end) = s ->
  In s (map app_id fetchedApps ++ [homeScreenActiveId]) ->
  updateActiveApplication session homeScreenActiveId app
  = Completed (hashCode s).
Proof.
  intros Hs Hin. unfold updateActiveApplication. rewrite Hs.
  unfold Accessory.sessionIndex, Accessory.applicationMap.
  simpl Platform.apps. rewrite <- session_native_ids in Hin.
  destruct (getAppFromRokuId_In _ s Hin) as [m Hfind]. rewrite Hfind.
  destruct (getAppFromRokuId_Some _ _ _ Hfind) as (_ & _ & Hid).
  simpl. now rewrite Hid.
Qed.

(** X9: on the session index the poller never fails while the device is
    idle or shows an application that was fetched: it writes the hash of
    [homeScreenActiveId], respectively of the application's native id, to
    ActiveIdentifier.  For an application that was not fetched and is not
    the Home entry a [TypeError] escapes and nothing is written. *)
Theorem poll_active_application :
  updateActiveApplication session homeScreenActiveId None
  = Completed (hashCode homeScreenActiveId) /\
  (forall r,
      In r fetchedApps ->
      updateActiveApplication session homeScreenActiveId (Some r)
      = Completed (hashCode (app_id r))) /\
  (forall r,
      ~ In (app_id r) (map app_id fetchedApps) ->
      app_id r <> homeScreenActiveId ->
      updateActiveApplication session homeScreenActiveId (Some r)
      = TypeError).
Proof.
  split; [|split].
  - apply updateActiveApplication_known; [reflexivity|].
    apply in_or_app. right. now left.
  - intros r Hr. apply updateActiveApplication_known; [reflexivity|].
    apply in_or_app. left. now apply in_map.
  - intros r Hnew Hnothome. unfold updateActiveApplication.
    destruct (getAppFromRokuId session (app_id r)) as [m|] eqn:Hfind;
      [|reflexivity].
    exfalso. apply getAppFromRokuId_Some in Hfind.
    destruct Hfind as (Hin & Hroku & _).
    apply (in_map rokuAppId) in Hin.
    rewrite createMappedApps_rokuAppIds in Hin. simpl Platform.apps in Hin.
    rewrite session_native_ids, Hroku in Hin.
    apply in_app_or in Hin. destruct Hin as [Hin|[Heq|[]]];
      [now apply Hnew | now apply Hnothome].
Qed.

(** X10: unless "Home" is an excluded name, the applications that
    [configureTelevisionApplicationInputs] iterates over include an entry
    named "Home" for which the input type HOME_SCREEN is chosen and whose
    numeric id is the value the poller writes to ActiveIdentifier while the
    device is idle. *)
Theorem home_entry_matches_idle_poll (excludedApps : list jsstring) :
  ~ In (of_string "Home") excludedApps ->
  exists n app,
    updateActiveApplication session homeScreenActiveId None = Completed n /\
    In app (Accessory.configuredInputApps session excludedApps) /\
    id app = n /\
    name app = of_string "Home" /\
    inputType app = HOME_SCREEN.
Proof.
  intros Hkept. exists (hashCode homeScreenActiveId).
  exists (mkMappedApp (hashCode homeScreenActiveId) homeScreenActiveId
                      (of_string "Home") (of_string "Home") (of_string "1")).
  split; [|split; [|repeat split]].
  - apply updateActiveApplication_known; [reflexivity|].
    apply in_or_app. right. now left.
  - unfold Accessory.configuredInputApps. apply filter_In. split.
    + unfold Accessory.sessionIndex, Accessory.applicationMap, getApps.
      simpl. rewrite createMappedApps_app. apply in_or_app. right. now left.
    + cbn [name]. apply negb_true_iff.
      destruct (includes excludedApps (of_string "Home")) eqn:Hinc;
        [|reflexivity].
      apply includes_In in Hinc. contradiction.
Qed.

End SessionPolling.

Lemma poll_active_application_witness :
  updateActiveApplication
    (Accessory.sessionIndex (of_string "home.id") tt tt [appNetflix])
    (of_string "home.id") (Some appNetflix)
  = Completed (hashCode (of_string "12")) /\
  updateActiveApplication
    (Accessory.sessionIndex (of_string "home.id") tt tt [appNetflix])
    (of_string "home.id") (Some appBB)
  = TypeError.
Proof.
  destruct (poll_active_application (of_string "home.id") tt tt [appNetflix])
    as (_ & Hknown & Hnew).
  split.
  - apply (Hknown appNetflix). now left.
  - apply (Hnew appBB).
    + simpl. intros [H|[]]. discriminate H.
    + discriminate.
Defined.

Lemma home_entry_matches_idle_poll_witness :
  exists n app,
    updateActiveApplication
      (Accessory.sessionIndex (of_string "home.id") tt tt [appNetflix])
      (of_string "home.id") None = Completed n /\
    In app
       (Accessory.configuredInputApps
          (Accessory.sessionIndex (of_string "home.id") tt tt [appNetflix])
          [of_string "Netflix"]) /\
    id app = n /\
    name app = of_string "Home" /\
    inputType app = HOME_SCREEN.
Proof.
  apply (home_entry_matches_idle_poll (of_string "home.id") tt tt [appNetflix]
           [of_string "Netflix"]).
  simpl. intros [H|[]]. discriminate H.
Defined.

(** ** Polling the power state *)

(** X11: once the poller's update is stored, the Active characteristic is
    ACTIVE exactly when the device reports the power mode "PowerOn", and a
    second poll that sees the same power mode writes nothing. *)
Theorem power_poll_settles
  (powerMode : option jsstring) (value : option Active) :
  isAlreadyON (valueAfterUpdatePower powerMode value) = isOn powerMode /\
  updatePower powerMode (valueAfterUpdatePower powerMode value) = None /\
  (valueAfterUpdatePower powerMode value = Some ACTIVE <->
   powerMode = Some (of_string "PowerOn")).
Proof.
  assert (Hon : isOn powerMode = true <-> powerMode = Some (of_string "PowerOn")).
  { destruct powerMode as [s|]; simpl.
    - rewrite str_eqb_eq. split; congruence.
    - split; discriminate. }
  unfold valueAfterUpdatePower, updatePower.
  destruct (isOn powerMode) eqn:Hmode;
    destruct value as [[|]|]; simpl; rewrite ?Hmode; simpl;
    repeat split; try reflexivity; try discriminate;
    try (intros _; now apply Hon);
    try (intros Hpm; apply Hon in Hpm; discriminate).
Qed.

(** ** Remote keys *)

(** X12: every member of RemoteKey sends a key press, a value outside the
    enumeration sends none, and two different remote keys send the same
    Roku key only in two cases: NEXT_TRACK with ARROW_RIGHT and
    PREVIOUS_TRACK with ARROW_LEFT. *)
Theorem remote_keys_shared_only_by_track_and_arrow
  (k1 k2 : RemoteKey.t) :
  (exists key, onSetRemoteKey (Some k1) = Some key) /\
  onSetRemoteKey None = None /\
  (onSetRemoteKey (Some k1) = onSetRemoteKey (Some k2) ->
   k1 = k2 \/
   (k1 = RemoteKey.NEXT_TRACK /\ k2 = RemoteKey.ARROW_RIGHT) \/
   (k1 = RemoteKey.ARROW_RIGHT /\ k2 = RemoteKey.NEXT_TRACK) \/
   (k1 = RemoteKey.PREVIOUS_TRACK /\ k2 = RemoteKey.ARROW_LEFT) \/
   (k1 = RemoteKey.ARROW_LEFT /\ k2 = RemoteKey.PREVIOUS_TRACK)).
Proof.
  split; [|split].
  - destruct k1; eexists; reflexivity.
  - reflexivity.
  - destruct k1, k2; cbv [onSetRemoteKey remoteKeyToKeyCommandAndName fst];
      intros H; try discriminate H; auto 6.
Qed.

Lemma remote_keys_shared_only_by_track_and_arrow_witness :
  RemoteKey.NEXT_TRACK = RemoteKey.ARROW_RIGHT \/
  (RemoteKey.NEXT_TRACK = RemoteKey.NEXT_TRACK /\
   RemoteKey.ARROW_RIGHT = RemoteKey.ARROW_RIGHT) \/
  (RemoteKey.NEXT_TRACK = RemoteKey.ARROW_RIGHT /\
   RemoteKey.ARROW_RIGHT = RemoteKey.NEXT_TRACK) \/
  (RemoteKey.NEXT_TRACK = RemoteKey.PREVIOUS_TRACK /\
   RemoteKey.ARROW_RIGHT = RemoteKey.ARROW_LEFT) \/
  (RemoteKey.NEXT_TRACK = RemoteKey.ARROW_LEFT /\
   RemoteKey.ARROW_RIGHT = RemoteKey.PREVIOUS_TRACK).
Proof.
  apply (proj2 (proj2 (remote_keys_shared_only_by_track_and_arrow
                         RemoteKey.NEXT_TRACK RemoteKey.ARROW_RIGHT))).
  reflexivity.
Defined.

Lemma power_poll_settles_witness :
  valueAfterUpdatePower (Some (of_string "PowerOn")) (Some INACTIVE)
  = Some ACTIVE.
Proof.
  apply (proj2 (proj2 (power_poll_settles (Some (of_string "PowerOn"))
                                          (Some INACTIVE)))).
  reflexivity.
Defined.

(** ** Discovery *)

Section DiscoveryProperties.

Import Discovery.

Context {RokuClient RokuDeviceInfo : Type}.
Variable deviceId : RokuDeviceInfo -> jsstring.
Variable userDeviceName : RokuDeviceInfo -> jsstring.
Variable generate : jsstring -> jsstring.

(** X13: for one device, the branch that creates and registers a new
    accessory is taken exactly when the UUID generated from the device id
    is the UUID of no cached accessory, and the new accessory is then asked
    for with that UUID and the device's name; otherwise the restore branch
    is taken with the first cached accessory that has this UUID.  Either
    branch receives the same client information and the configured
    exclusions, the empty list by default. *)
Theorem register_branch_only_for_uncached_uuid
  (accessories : list PlatformAccessory)
  (configExcludedApps : option (list jsstring))
  (clientInfo : Platform.RokuClientInfo RokuClient RokuDeviceInfo) :
  match createAccessoryFromRokuClientInfo RokuClient RokuDeviceInfo deviceId
          userDeviceName generate accessories configExcludedApps clientInfo
  with
  | Registered _ _ accessory passedInfo excluded =>
      ~ In (generate (deviceId (Platform.info clientInfo)))
           (map UUID accessories) /\
      UUID accessory = generate (deviceId (Platform.info clientInfo)) /\
      displayName accessory = userDeviceName (Platform.info clientInfo) /\
      passedInfo = clientInfo /\
      excluded = excludedOrEmpty configExcludedApps
  | Restored _ _ existingAccessory passedInfo excluded =>
      (exists before after,
          accessories = before ++ existingAccessory :: after /\
          UUID existingAccessory
          = generate (deviceId (Platform.info clientInfo)) /\
          forall x, In x before ->
                    UUID x <> generate (deviceId (Platform.info clientInfo))) /\
      passedInfo = clientInfo /\
      excluded = excludedOrEmpty configExcludedApps
  end.
Proof.
  unfold createAccessoryFromRokuClientInfo.
  destruct (find _ accessories) as [existing|] eqn:Hfind.
  - apply find_Some_split in Hfind.
    destruct Hfind as (before & after & Hsplit & Hmatch & Hbefore).
    repeat split. exists before, after. repeat split.
    + exact Hsplit.
    + now apply str_eqb_eq.
    + intros x Hx. apply str_eqb_neq. now apply Hbefore.
  - repeat split. intros Hin. apply in_map_iff in Hin.
    destruct Hin as (x & Hx & Hin).
    pose proof (find_none _ _ Hfind x Hin) as Hne. simpl in Hne.
    apply str_eqb_neq in Hne. now apply Hne.
Qed.

(** X14: a device whose generated UUID is that of an accessory handed to
    [configureAccessory] before discovery is restored on a cached accessory
    with that UUID and is not registered again. *)
Theorem cached_accessory_is_restored
  (accessories : list PlatformAccessory) (accessory : PlatformAccessory)
  (configExcludedApps : option (list jsstring))
  (clientInfo : Platform.RokuClientInfo RokuClient RokuDeviceInfo) :
  generate (deviceId (Platform.info clientInfo)) = UUID accessory ->
  exists existingAccessory,
    createAccessoryFromRokuClientInfo RokuClient RokuDeviceInfo deviceId
      userDeviceName generate (configureAccessory accessories accessory)
      configExcludedApps clientInfo
    = Restored RokuClient RokuDeviceInfo existingAccessory clientInfo
               (excludedOrEmpty configExcludedApps) /\
    UUID existingAccessory = UUID accessory /\
    In existingAccessory (configureAccessory accessories accessory).
Proof.
  intros Huuid. unfold createAccessoryFromRokuClientInfo. rewrite Huuid.
  destruct (find _ (configureAccessory accessories accessory))
    as [existing|] eqn:Hfind.
  - exists existing. destruct (find_some _ _ Hfind) as [Hin Heq].
    apply str_eqb_eq in Heq. now repeat split.
  - exfalso. rewrite find_None_iff in Hfind.
    assert (Hin : In accessory (configureAccessory accessories accessory)).
    { apply in_or_app. right. now left. }
    specialize (Hfind accessory Hin). apply str_eqb_neq in Hfind.
    now apply Hfind.
Qed.

End DiscoveryProperties.

Lemma cached_accessory_is_restored_witness :
  exists existingAccessory,
    Discovery.createAccessoryFromRokuClientInfo unit jsstring
      (fun i => i) (fun i => i) (fun s => 0 :: s)
      (Discovery.configureAccessory
         [] (Discovery.mkPlatformAccessory (of_string "TV") (0 :: of_string "X1")))
      None
      (Platform.createClientInfoFromClient
         (of_string "home.id") tt (of_string "X1") [appNetflix])
    = Discovery.Restored unit jsstring existingAccessory
        (Platform.createClientInfoFromClient
           (of_string "home.id") tt (of_string "X1") [appNetflix])
        [] /\
    Discovery.UUID existingAccessory = 0 :: of_string "X1" /\
    In existingAccessory
       (Discovery.configureAccessory
          [] (Discovery.mkPlatformAccessory (of_string "TV")
                                            (0 :: of_string "X1"))).
Proof.
  apply (cached_accessory_is_restored
           (fun i => i) (fun i => i) (fun s => 0 :: s) []
           (Discovery.mkPlatformAccessory (of_string "TV") (0 :: of_string "X1"))
           None
           (Platform.createClientInfoFromClient
              (of_string "home.id") tt (of_string "X1") [appNetflix])).
  reflexivity.
Defined.
